(** * RetroEmu: the game-load entry point [retro_load_game] of [core.c]

  [core.c] holds one function.  It tests its pointer argument against
  null, reads the [path] field through it, hands that path to the external
  routine [load_rom], and turns the answer into a boolean.

  The embedding keeps these three kinds of step apart:
  - the program is a tree of the effects the C text performs
    ([prog]: a read of [game->path], a call of [load_rom], a return);
  - memory is a finite map from addresses to game-description structures,
    next to whatever else [load_rom] may touch ([machine]);
  - [load_rom] is not defined in the repository, so it is a parameter:
    a total function for the executable semantics ([run]), an arbitrary
    relation where a claim is about its determinism or its termination
    ([exec]). *)

From Stdlib Require Import NArith List Bool Lia.
From stdpp Require Import base option list gmap strings.

Set Default Proof Using "Type".

(** ** Data *)

(** A pointer is an address; the null pointer is address [0]. *)
Definition ptr : Type := N.
Definition NULL : ptr := 0%N.

(** C's [!p] on a pointer: true exactly when [p] is null. *)
Definition lnot_ptr (p : ptr) : bool := N.eqb p NULL.

Section Core.

(** [struct retro_game_info] is used but not declared in [core.c].  The
    function reads its [path] field only; the type of paths and the
    remaining fields are left open. *)
Context {Path Extra World : Type}.

Record retro_game_info : Type := GameInfo {
  path : Path;
  rest : Extra
}.

(** Memory holding game-description structures, and the part of the
    state that only [load_rom] knows about. *)
Record machine : Type := Machine {
  heap : gmap N retro_game_info;
  world : World
}.

(** What an observer of one call can see, in order. *)
Inductive event : Type :=
| EvDeref (a : ptr)                 (* read of [a->path] *)
| EvLoadRom (p : Path) (r : bool).  (* call [load_rom(p)] that answered [r] *)

(** ** Programs: trees of effects *)

Inductive prog (R : Type) : Type :=
| Ret (r : R)
| LoadPath (a : ptr) (k : Path → prog R)
| CallLoadRom (p : Path) (k : bool → prog R).
Global Arguments Ret {R} r.
Global Arguments LoadPath {R} a k.
Global Arguments CallLoadRom {R} p k.

Fixpoint prog_bind {A B} (f : A → prog B) (c : prog A) : prog B :=
  match c with
  | Ret r => f r
  | LoadPath a k => LoadPath a (λ p, prog_bind f (k p))
  | CallLoadRom p k => CallLoadRom p (λ b, prog_bind f (k b))
  end.

Global Instance prog_mret : MRet prog := λ _ r, Ret r.
Global Instance prog_mbind : MBind prog := λ _ _ f c, prog_bind f c.

(** [game->path] *)
Definition load_path (game : ptr) : prog Path := LoadPath game Ret.
(** [load_rom(p)] *)
Definition call_load_rom (p : Path) : prog bool := CallLoadRom p Ret.

(** ** The function

<<
    bool retro_load_game(const struct retro_game_info *game)
    {
        if (!game)
            return false;
        if (!load_rom(game->path))
            return false;
        return true;
    }
>>
*)
Definition retro_load_game (game : ptr) : prog bool :=
  if lnot_ptr game then Ret false
  else
    p ← load_path game;
    ok ← call_load_rom p;
    if negb ok then Ret false
    else Ret true.

(** ** Executable semantics, for a [load_rom] that is a total function *)

(** A call either returns a value or faults: a read through a non-null
    pointer that references no live structure has no defined behaviour. *)
Inductive outcome (R : Type) : Type :=
| Done (r : R)
| Fault.
Global Arguments Done {R} r.
Global Arguments Fault {R}.

Record result (R : Type) : Type := Result {
  res : outcome R;
  final : machine;
  trace : list event
}.
Global Arguments Result {R} _ _ _.
Global Arguments res {R} _.
Global Arguments final {R} _.
Global Arguments trace {R} _.

Definition log {R} (e : event) (r : result R) : result R :=
  Result (res r) (final r) (e :: trace r).

Section Run.
Context (load_rom : Path → machine → bool * machine).

Fixpoint run {R} (c : prog R) (m : machine) : result R :=
  match c with
  | Ret r => Result (Done r) m []
  | LoadPath a k =>
      match heap m !! a with
      | Some g => log (EvDeref a) (run (k (path g)) m)
      | None => Result Fault m [EvDeref a]
      end
  | CallLoadRom p k =>
      let '(b, m1) := load_rom p m in
      log (EvLoadRom p b) (run (k b) m1)
  end.

(** The state left by the [load_rom] calls of a trace, replayed in order
    from [m]; every other event leaves the state as it is. *)
Fixpoint replay (t : list event) (m : machine) : machine :=
  match t with
  | [] => m
  | EvDeref _ :: t' => replay t' m
  | EvLoadRom p _ :: t' => replay t' (load_rom p m).2
  end.

(** The condition under which the call is to succeed: the pointer is not
    null, and [load_rom] accepts the path found behind it. *)
Definition load_succeeds (m : machine) (game : ptr) : Prop :=
  game ≠ NULL ∧
  ∃ g, heap m !! game = Some g ∧ (load_rom (path g) m).1 = true.
End Run.

(** ** Relational semantics, for an arbitrary [load_rom]

    [lr p m b m1]: called with [p] in state [m], [load_rom] may answer [b]
    and leave state [m1].  Nothing is assumed of [lr]: it may relate a call
    to several answers, or to none when the call does not return. *)
Section Exec.
Context (lr : Path → machine → bool → machine → Prop).

Inductive exec {R} : prog R → machine → result R → Prop :=
| exec_ret r m :
    exec (Ret r) m (Result (Done r) m [])
| exec_deref a k m g r :
    heap m !! a = Some g →
    exec (k (path g)) m r →
    exec (LoadPath a k) m (log (EvDeref a) r)
| exec_fault a k m :
    heap m !! a = None →
    exec (LoadPath a k) m (Result Fault m [EvDeref a])
| exec_call p k m b m1 r :
    lr p m b m1 →
    exec (k b) m1 r →
    exec (CallLoadRom p k) m (log (EvLoadRom p b) r).

(** [load_rom] is deterministic: a call has at most one answer and effect. *)
Definition deterministic : Prop :=
  ∀ p m b1 m1 b2 m2, lr p m b1 m1 → lr p m b2 m2 → b1 = b2 ∧ m1 = m2.

(** [load_rom] terminates: every call has an answer. *)
Definition terminating : Prop :=
  ∀ p m, ∃ b m1, lr p m b m1.

(** The answer of [load_rom] is determined by the path it is given, not by
    the state it is called in. *)
Definition answer_by_path : Prop :=
  ∀ p m1 b1 s1 m2 b2 s2, lr p m1 b1 s1 → lr p m2 b2 s2 → b1 = b2.
End Exec.

(** The relation a total function stands for. *)
Definition graph (load_rom : Path → machine → bool * machine)
  : Path → machine → bool → machine → Prop :=
  λ p m b m1, load_rom p m = (b, m1).

(** ** Observations on traces and states *)

(** The addresses read through, in order. *)
Fixpoint derefs (t : list event) : list ptr :=
  match t with
  | [] => []
  | EvDeref a :: t' => a :: derefs t'
  | EvLoadRom _ _ :: t' => derefs t'
  end.

(** The arguments of the [load_rom] calls, in order. *)
Fixpoint rom_calls (t : list event) : list Path :=
  match t with
  | [] => []
  | EvDeref _ :: t' => rom_calls t'
  | EvLoadRom p _ :: t' => p :: rom_calls t'
  end.

(** What a caller owes the function: [game] is null or points to a live
    game-description structure. *)
Definition valid_game (m : machine) (game : ptr) : Prop :=
  game = NULL ∨ is_Some (heap m !! game).

Global Instance valid_game_dec m game : Decision (valid_game m game).
Proof. unfold valid_game, NULL, ptr in *. apply _. Defined.

End Core.

Global Arguments retro_game_info : clear implicits.
Global Arguments machine : clear implicits.
Global Arguments event : clear implicits.
Global Arguments prog : clear implicits.
Global Arguments result : clear implicits.

(** ** A concrete instance, to run the definitions *)

Module Demo.
(** Paths are strings, the other fields are summed up as a size, and the
    world is the list of images loaded so far.  [load_rom] accepts any
    non-empty path and records it. *)
Definition load_rom (p : string) (m : machine string N (list string))
  : bool * machine string N (list string) :=
  (match p with EmptyString => false | String _ _ => true end,
   Machine (heap m) (p :: world m)).

(** A second loader: it refuses every image and touches nothing. *)
Definition refuse (p : string) (m : machine string N (list string))
  : bool * machine string N (list string) :=
  (false, m).

(** A loader that holds one image at a time: it accepts a path only while
    nothing is loaded, and records every path it is given. *)
Definition once (p : string) (m : machine string N (list string))
  : bool * machine string N (list string) :=
  (match world m with [] => true | _ :: _ => false end,
   Machine (heap m) (p :: world m)).

(** A loader that may answer either way, and one that never returns. *)
Definition flaky (p : string) (m : machine string N (list string))
    (b : bool) (m1 : machine string N (list string)) : Prop :=
  m1 = m.

Definition hangs (p : string) (m : machine string N (list string))
    (b : bool) (m1 : machine string N (list string)) : Prop :=
  False.

Definition mario : retro_game_info string N := GameInfo "mario.nes" 40976%N.
Definition zelda : retro_game_info string N := GameInfo "zelda.nes" 131088%N.
Definition blank : retro_game_info string N := GameInfo EmptyString 0%N.

(** [mario] lives at address 16, [blank] at 32, [zelda] at 64; address 48
    holds nothing. *)
Definition m0 : machine string N (list string) :=
  Machine (<[16%N := mario]> (<[32%N := blank]> (<[64%N := zelda]> ∅))) [].
End Demo.

(** * Properties *)

Example demo_null :
  run Demo.load_rom (retro_load_game NULL) Demo.m0 = Result (Done false) Demo.m0 [].
Proof. reflexivity. Qed.

Example demo_mario :
  run Demo.load_rom (retro_load_game 16%N) Demo.m0
  = Result (Done true) (Machine (heap Demo.m0) ["mario.nes"])
      [EvDeref 16%N; EvLoadRom "mario.nes" true].
Proof. vm_compute. reflexivity. Qed.

Example demo_blank :
  run Demo.load_rom (retro_load_game 32%N) Demo.m0
  = Result (Done false) (Machine (heap Demo.m0) [EmptyString])
      [EvDeref 32%N; EvLoadRom EmptyString false].
Proof. vm_compute. reflexivity. Qed.

Example demo_dangling :
  run Demo.load_rom (retro_load_game 48%N) Demo.m0
  = Result Fault Demo.m0 [EvDeref 48%N].
Proof. vm_compute. reflexivity. Qed.

(** ** The shape of the program and of the semantics *)

Section Shape.
Context {Path Extra World : Type}.
Implicit Types (game a : ptr) (m : machine Path Extra World).
Implicit Types (load_rom : Path → machine Path Extra World
                           → bool * machine Path Extra World).

Lemma lnot_ptr_true game : lnot_ptr game = true ↔ game = NULL.
Proof. unfold lnot_ptr. apply N.eqb_eq. Qed.

Lemma lnot_ptr_false game : lnot_ptr game = false ↔ game ≠ NULL.
Proof. unfold lnot_ptr. apply N.eqb_neq. Qed.

(** The effect tree of the function, with the binds computed away. *)
Lemma retro_load_game_tree game :
  retro_load_game (Path := Path) game =
  if lnot_ptr game then Ret false
  else LoadPath game (λ p,
         CallLoadRom p (λ ok, if negb ok then Ret false else Ret true)).
Proof. reflexivity. Qed.

(** The run of the function on a machine, case by case. *)
Lemma run_null load_rom m :
  run load_rom (retro_load_game NULL) m = Result (Done false) m [].
Proof. reflexivity. Qed.

Lemma run_dangling load_rom game m :
  game ≠ NULL → heap m !! game = None →
  run load_rom (retro_load_game game) m = Result Fault m [EvDeref game].
Proof.
  intros Hn Hg. rewrite retro_load_game_tree.
  apply lnot_ptr_false in Hn. rewrite Hn. simpl. by rewrite Hg.
Qed.

Lemma run_live load_rom game m g :
  game ≠ NULL → heap m !! game = Some g →
  run load_rom (retro_load_game game) m =
  Result (Done (load_rom (path g) m).1) (load_rom (path g) m).2
    [EvDeref game; EvLoadRom (path g) (load_rom (path g) m).1].
Proof.
  intros Hn Hg. rewrite retro_load_game_tree.
  apply lnot_ptr_false in Hn. rewrite Hn. simpl. rewrite Hg.
  destruct (load_rom (path g) m) as [[] m1]; reflexivity.
Qed.

(** [run] computes the one execution that [exec] allows when [load_rom] is
    a function. *)
Lemma exec_run load_rom {R} (c : prog Path R) m :
  exec (graph load_rom) c m (run load_rom c m).
Proof.
  revert m. induction c as [r|a k IH|p k IH]; intros m; simpl.
  - constructor.
  - destruct (heap m !! a) as [g|] eqn:Hg.
    + by eapply exec_deref.
    + by apply exec_fault.
  - destruct (load_rom p m) as [b m1] eqn:Hl.
    by eapply exec_call.
Qed.

(** A deterministic [load_rom] leaves every program one execution. *)
Lemma exec_deterministic lr {R} (c : prog Path R) m (r1 r2 : result Path Extra World R) :
  deterministic lr → exec lr c m r1 → exec lr c m r2 → r1 = r2.
Proof.
  intros Hdet H1. revert r2.
  induction H1 as [r m|a k m g r Hg _ IH|a k m Hg|p k m b m1 r Hl _ IH];
    intros r2 H2; inversion H2; simplify_eq; try done.
  - f_equal. by apply IH.
  - match goal with
    | H : lr p m ?b' ?m' |- _ => destruct (Hdet _ _ _ _ _ _ Hl H)
    end.
    simplify_eq. f_equal. by apply IH.
Qed.

(** A terminating [load_rom] gives every program an execution: the tree of
    effects is well founded, there is nothing to loop through. *)
Lemma exec_total lr {R} (c : prog Path R) m :
  terminating lr → ∃ r : result Path Extra World R, exec lr c m r.
Proof.
  intros Hterm. revert m.
  induction c as [r|a k IH|p k IH]; intros m.
  - eexists. constructor.
  - destruct (heap m !! a) as [g|] eqn:Hg.
    + destruct (IH (path g) m) as [r Hr]. eexists. by eapply exec_deref.
    + eexists. by apply exec_fault.
  - destruct (Hterm p m) as (b & m1 & Hl).
    destruct (IH b m1) as [r Hr]. eexists. by eapply exec_call.
Qed.

(** The executions of the function, read off its tree. *)
Lemma exec_inv lr game m (r : result Path Extra World bool) :
  exec lr (retro_load_game game) m r →
  (game = NULL ∧ r = Result (Done false) m []) ∨
  (game ≠ NULL ∧ heap m !! game = None ∧ r = Result Fault m [EvDeref game]) ∨
  (game ≠ NULL ∧ ∃ g b m1, heap m !! game = Some g ∧ lr (path g) m b m1 ∧
     r = Result (Done b) m1 [EvDeref game; EvLoadRom (path g) b]).
Proof.
  rewrite retro_load_game_tree.
  destruct (lnot_ptr game) eqn:Hn.
  - apply lnot_ptr_true in Hn. intros H. inversion H; simplify_eq. by left.
  - apply lnot_ptr_false in Hn. intros H. right.
    inversion H as [|? ? ? g r' Hg Hk|? ? ? Hg|]; simplify_eq.
    + right. split; [done|].
      inversion Hk as [| | |? ? ? b m1 r'' Hl Hk']; simplify_eq.
      exists g, b, m1. split_and!; [done..|].
      destruct b; inversion Hk'; simplify_eq; reflexivity.
    + by left.
Qed.

Lemma graph_deterministic load_rom : deterministic (graph load_rom).
Proof. unfold deterministic, graph. intros. split; congruence. Qed.

Lemma graph_terminating load_rom : terminating (graph load_rom).
Proof.
  intros p m. unfold graph.
  destruct (load_rom p m) as [b m1]. by exists b, m1.
Qed.

End Shape.

(** Case analysis on a call: null pointer, dangling pointer, live pointer. *)
Ltac call_cases load_rom game m :=
  let Hn := fresh "Hnull" in
  let Hg := fresh "Hgame" in
  let g := fresh "g" in
  destruct (decide (game = NULL)) as [Hn|Hn];
  [ subst game; rewrite ?run_null
  | destruct (heap m !! game) as [g|] eqn:Hg;
    [ rewrite ?(run_live load_rom game m g Hn Hg)
    | rewrite ?(run_dangling load_rom game m Hn Hg) ] ].

Example demo_valid :
  bool_decide (valid_game Demo.m0 NULL) = true ∧
  bool_decide (valid_game Demo.m0 16%N) = true ∧
  bool_decide (valid_game Demo.m0 48%N) = false.
Proof. vm_compute. done. Qed.

(** Without determinism of [load_rom] the same call has two results. *)
Example demo_flaky :
  exec Demo.flaky (retro_load_game 16%N) Demo.m0
    (Result (Done true) Demo.m0 [EvDeref 16%N; EvLoadRom "mario.nes" true]) ∧
  exec Demo.flaky (retro_load_game 16%N) Demo.m0
    (Result (Done false) Demo.m0 [EvDeref 16%N; EvLoadRom "mario.nes" false]).
Proof.
  split.
  - apply (exec_deref Demo.flaky 16%N _ Demo.m0 Demo.mario
             (Result (Done true) Demo.m0 [EvLoadRom "mario.nes" true])).
    + vm_compute. reflexivity.
    + apply (exec_call Demo.flaky "mario.nes" _ Demo.m0 true Demo.m0
               (Result (Done true) Demo.m0 [])); [reflexivity|].
      apply exec_ret.
  - apply (exec_deref Demo.flaky 16%N _ Demo.m0 Demo.mario
             (Result (Done false) Demo.m0 [EvLoadRom "mario.nes" false])).
    + vm_compute. reflexivity.
    + apply (exec_call Demo.flaky "mario.nes" _ Demo.m0 false Demo.m0
               (Result (Done false) Demo.m0 [])); [reflexivity|].
      apply exec_ret.
Qed.

(** With a [load_rom] that never returns, a call on a live structure has
    no execution, while a call on the null pointer still returns. *)
Example demo_hangs :
  (∀ r, ¬ exec Demo.hangs (retro_load_game 16%N) Demo.m0 r) ∧
  exec Demo.hangs (retro_load_game NULL) Demo.m0 (Result (Done false) Demo.m0 []).
Proof.
  split.
  - intros r H.
    apply exec_inv in H as [[? _]|[(_ & Hg & _)|(_ & g & b & m1 & _ & Hl & _)]].
    + discriminate.
    + vm_compute in Hg. discriminate.
    + destruct Hl.
  - apply exec_ret.
Qed.

(** ** The contract of [retro_load_game] *)

Section Contract.
Context {Path Extra World : Type}.
Implicit Types (game : ptr) (m : machine Path Extra World).
Implicit Types (g : retro_game_info Path Extra).
Implicit Types (load_rom : Path → machine Path Extra World
                           → bool * machine Path Extra World).
Implicit Types (lr : Path → machine Path Extra World
                     → bool → machine Path Extra World → Prop).

(** C1. On every input a caller may pass (a null pointer, or a pointer to
    a live structure), [retro_load_game] returns [true] if and only if the
    pointer is not null and [load_rom] accepts the structure's path; it
    returns [false] if and only if that condition fails; and it returns one
    of the two, there is no third outcome. *)
Theorem retro_load_game_true_iff load_rom game m :
  valid_game m game →
  (res (run load_rom (retro_load_game game) m) = Done true
     ↔ load_succeeds load_rom m game) ∧
  (res (run load_rom (retro_load_game game) m) = Done false
     ↔ ¬ load_succeeds load_rom m game) ∧
  (res (run load_rom (retro_load_game game) m) = Done true ∨
   res (run load_rom (retro_load_game game) m) = Done false).
Proof.
  intros Hv. call_cases load_rom game m; simpl.
  - split_and!; [split; [done|by intros [? _]]
               |split; [by intros _ [? _]|done]
               |by right].
  - destruct (load_rom (path g) m) as [[] m1] eqn:Hl; simpl.
    + assert (Hs : load_succeeds load_rom m game).
      { split; [done|]. exists g. by rewrite Hl. }
      split_and!; [by split|split; [done|by intros []]|by left].
    + assert (Hs : ¬ load_succeeds load_rom m game).
      { intros (_ & g' & Hg' & Hb). simplify_eq. by rewrite Hl in Hb. }
      split_and!; [split; [done|by intros ?]|by split|by right].
  - destruct Hv as [?|[g Hg]]; [done|]. congruence.
Qed.

(** C2. A null game-description pointer makes [retro_load_game] return
    failure, whatever [load_rom] is and whatever the state. *)
Theorem retro_load_game_null load_rom m :
  res (run load_rom (retro_load_game NULL) m) = Done false.
Proof. reflexivity. Qed.

(** C3. For a non-null pointer to a structure whose path [load_rom]
    refuses, [retro_load_game] returns failure: the answer of [load_rom]
    is the answer of the call. *)
Theorem retro_load_game_load_failure load_rom game m g :
  game ≠ NULL →
  heap m !! game = Some g →
  (load_rom (path g) m).1 = false →
  res (run load_rom (retro_load_game game) m) = Done false ∧
  res (run load_rom (retro_load_game game) m) = Done (load_rom (path g) m).1.
Proof.
  intros Hn Hg Hb. rewrite (run_live load_rom game m g Hn Hg). simpl.
  by rewrite Hb.
Qed.

(** C4. With a null pointer the function fails at once: its effect tree is
    the bare [return false], so the run leaves the state as it was and its
    trace is empty (no call of [load_rom], no read of [path]).  And on any
    input the only address ever read through is [game] itself, and only
    when [game] passed the null test. *)
Theorem retro_load_game_null_guard load_rom game m :
  retro_load_game (Path := Path) NULL = Ret false ∧
  run load_rom (retro_load_game NULL) m = Result (Done false) m [] ∧
  derefs (trace (run load_rom (retro_load_game game) m))
    = (if lnot_ptr game then [] else [game]) ∧
  rom_calls (trace (run load_rom (retro_load_game NULL) m)) = [].
Proof.
  split_and!; try reflexivity.
  call_cases load_rom game m; simpl; try reflexivity.
  all: apply lnot_ptr_false in Hnull; by rewrite Hnull.
Qed.

(** Determinism from one state.  If [load_rom] is deterministic, two
    executions of the call on the same pointer that start in the same
    state return the same boolean and leave the same state.  Calls that
    start in different states are treated at the end of the file. *)
Theorem retro_load_game_deterministic lr game m
    (r1 r2 : result Path Extra World bool) :
  deterministic lr →
  exec lr (retro_load_game game) m r1 →
  exec lr (retro_load_game game) m r2 →
  res r1 = res r2 ∧ final r1 = final r2.
Proof.
  intros Hdet H1 H2.
  by rewrite (exec_deterministic lr _ m r1 r2 Hdet H1 H2).
Qed.

(** Repeating the call.  When the answer of [load_rom] depends on the path
    alone and [load_rom] leaves the path behind [game] as it is, a second
    call, made in the state the first one left, returns what the first
    returned. *)
Lemma retro_load_game_repeat load_rom game m :
  (∀ p s s', (load_rom p s).1 = (load_rom p s').1) →
  (∀ p s, path <$> heap (load_rom p s).2 !! game = path <$> heap s !! game) →
  res (run load_rom (retro_load_game game)
         (final (run load_rom (retro_load_game game) m)))
  = res (run load_rom (retro_load_game game) m).
Proof.
  intros Hpure Hkeep.
  call_cases load_rom game m; simpl.
  - reflexivity.
  - specialize (Hkeep (path g) m). rewrite Hgame in Hkeep. simpl in Hkeep.
    destruct (heap (load_rom (path g) m).2 !! game) as [g'|] eqn:Hg';
      simplify_eq/=.
    rewrite (run_live load_rom game _ g' Hnull Hg'). simpl.
    f_equal. rewrite Hkeep. apply Hpure.
  - by rewrite (run_dangling load_rom game m Hnull Hgame).
Qed.

(** C6. [retro_load_game] changes no state of its own.  The state after
    the call is the state [load_rom] left, or the initial state when
    [load_rom] was not called; replaying the [load_rom] calls of the trace
    alone rebuilds it.  So with a [load_rom] that leaves memory alone, the
    memory after the call is the memory before it: no structure was
    allocated, freed or written. *)
Theorem retro_load_game_frame load_rom game m :
  final (run load_rom (retro_load_game game) m)
    = match (if lnot_ptr game then None else heap m !! game) with
      | Some g => (load_rom (path g) m).2
      | None => m
      end ∧
  final (run load_rom (retro_load_game game) m)
    = replay load_rom (trace (run load_rom (retro_load_game game) m)) m ∧
  ((∀ p s, heap (load_rom p s).2 = heap s) →
   heap (final (run load_rom (retro_load_game game) m)) = heap m).
Proof.
  call_cases load_rom game m; simpl.
  - done.
  - apply lnot_ptr_false in Hnull. rewrite Hnull.
    split_and!; try done; intros Hframe; apply Hframe.
  - apply lnot_ptr_false in Hnull. by rewrite Hnull.
Qed.

(** C7. With a non-null pointer to a live structure, [load_rom] is called
    with exactly the [path] field of that structure, read through [game]. *)
Theorem retro_load_game_calls_with_path load_rom game m g :
  game ≠ NULL →
  heap m !! game = Some g →
  rom_calls (trace (run load_rom (retro_load_game game) m)) = [path g] ∧
  derefs (trace (run load_rom (retro_load_game game) m)) = [game].
Proof.
  intros Hn Hg. by rewrite (run_live load_rom game m g Hn Hg).
Qed.

(** C8. The result depends only on whether the pointer is null and on the
    boolean [load_rom] answers for the path.  Two valid inputs that agree
    on the null test and, when not null, on that boolean, give the same
    result: whatever the addresses, the paths, the other fields, the rest
    of the state, and even the loader. *)
Theorem retro_load_game_result_depends_on load_rom1 load_rom2 game1 game2 m1 m2 :
  valid_game m1 game1 →
  valid_game m2 game2 →
  lnot_ptr game1 = lnot_ptr game2 →
  (∀ g1 g2,
     game1 ≠ NULL → game2 ≠ NULL →
     heap m1 !! game1 = Some g1 → heap m2 !! game2 = Some g2 →
     (load_rom1 (path g1) m1).1 = (load_rom2 (path g2) m2).1) →
  res (run load_rom1 (retro_load_game game1) m1)
  = res (run load_rom2 (retro_load_game game2) m2).
Proof.
  intros Hv1 Hv2 Hnn Hb.
  call_cases load_rom1 game1 m1.
  - symmetry in Hnn. apply lnot_ptr_true in Hnn. by subst game2.
  - assert (Hn2 : game2 ≠ NULL).
    { apply lnot_ptr_false. rewrite <- Hnn. by apply lnot_ptr_false. }
    destruct Hv2 as [?|[g2 Hg2]]; [done|].
    rewrite (run_live load_rom2 game2 m2 g2 Hn2 Hg2). simpl.
    f_equal. by apply Hb.
  - destruct Hv1 as [?|[g Hg]]; [done|]. congruence.
Qed.

(** C9. One call of [retro_load_game] calls [load_rom] at most once: not
    at all when the pointer is null, exactly once when it is not. *)
Theorem retro_load_game_calls_once load_rom game m :
  valid_game m game →
  length (rom_calls (trace (run load_rom (retro_load_game game) m)))
    = (if lnot_ptr game then 0 else 1) ∧
  length (rom_calls (trace (run load_rom (retro_load_game game) m))) ≤ 1.
Proof.
  intros Hv. call_cases load_rom game m; simpl.
  - split; [done|lia].
  - apply lnot_ptr_false in Hnull. rewrite Hnull. split; [done|lia].
  - destruct Hv as [?|[g Hg]]; [done|]. congruence.
Qed.

(** C10. Provided [load_rom] terminates, [retro_load_game] terminates on
    every input: it has an execution, of at most two steps, and on an
    input a caller may pass that execution returns a boolean. *)
Theorem retro_load_game_terminates lr game m :
  terminating lr →
  ∃ r : result Path Extra World bool,
    exec lr (retro_load_game game) m r ∧
    length (trace r) ≤ 2 ∧
    (valid_game m game → ∃ b, res r = Done b).
Proof.
  intros Hterm.
  destruct (exec_total lr (retro_load_game game) m Hterm) as [r Hr].
  exists r. split; [done|].
  apply exec_inv in Hr as [[-> ->]|[(Hn & Hg & ->)|(Hn & g & b & m1 & Hg & _ & ->)]];
    simpl.
  - split; [lia|]. by exists false.
  - split; [lia|]. intros [?|[g Hg']]; [done|]. congruence.
  - split; [lia|]. by exists b.
Qed.

End Contract.

(** ** The contract at work on the demonstration machine *)

Lemma retro_load_game_true_iff_witness :
  valid_game Demo.m0 16%N ∧
  (res (run Demo.load_rom (retro_load_game 16%N) Demo.m0) = Done true
     ↔ load_succeeds Demo.load_rom Demo.m0 16%N) ∧
  (res (run Demo.load_rom (retro_load_game 16%N) Demo.m0) = Done false
     ↔ ¬ load_succeeds Demo.load_rom Demo.m0 16%N) ∧
  (res (run Demo.load_rom (retro_load_game 16%N) Demo.m0) = Done true ∨
   res (run Demo.load_rom (retro_load_game 16%N) Demo.m0) = Done false).
Proof.
  assert (Hv : valid_game Demo.m0 16%N).
  { right. exists Demo.mario. vm_compute. reflexivity. }
  split; [exact Hv|].
  exact (retro_load_game_true_iff Demo.load_rom 16%N Demo.m0 Hv).
Defined.

Lemma retro_load_game_load_failure_witness :
  32%N ≠ NULL ∧
  heap Demo.m0 !! 32%N = Some Demo.blank ∧
  (Demo.load_rom (path Demo.blank) Demo.m0).1 = false ∧
  res (run Demo.load_rom (retro_load_game 32%N) Demo.m0) = Done false ∧
  res (run Demo.load_rom (retro_load_game 32%N) Demo.m0)
    = Done (Demo.load_rom (path Demo.blank) Demo.m0).1.
Proof.
  assert (Hn : 32%N ≠ NULL) by discriminate.
  assert (Hg : heap Demo.m0 !! 32%N = Some Demo.blank)
    by (vm_compute; reflexivity).
  assert (Hb : (Demo.load_rom (path Demo.blank) Demo.m0).1 = false)
    by reflexivity.
  split_and!; [exact Hn|exact Hg|exact Hb|..];
    apply (retro_load_game_load_failure Demo.load_rom 32%N Demo.m0 Demo.blank
             Hn Hg Hb).
Defined.

Lemma retro_load_game_deterministic_witness :
  deterministic (graph Demo.load_rom) ∧
  exec (graph Demo.load_rom) (retro_load_game 16%N) Demo.m0
    (run Demo.load_rom (retro_load_game 16%N) Demo.m0) ∧
  res (run Demo.load_rom (retro_load_game 16%N) Demo.m0)
    = res (run Demo.load_rom (retro_load_game 16%N) Demo.m0) ∧
  final (run Demo.load_rom (retro_load_game 16%N) Demo.m0)
    = final (run Demo.load_rom (retro_load_game 16%N) Demo.m0).
Proof.
  pose proof (graph_deterministic Demo.load_rom) as Hdet.
  pose proof (exec_run Demo.load_rom (retro_load_game 16%N) Demo.m0) as Hex.
  split_and!; [exact Hdet|exact Hex|..];
    apply (retro_load_game_deterministic (graph Demo.load_rom) 16%N Demo.m0
             _ _ Hdet Hex Hex).
Defined.

Lemma retro_load_game_calls_with_path_witness :
  16%N ≠ NULL ∧
  heap Demo.m0 !! 16%N = Some Demo.mario ∧
  rom_calls (trace (run Demo.load_rom (retro_load_game 16%N) Demo.m0))
    = [path Demo.mario] ∧
  derefs (trace (run Demo.load_rom (retro_load_game 16%N) Demo.m0)) = [16%N].
Proof.
  assert (Hn : 16%N ≠ NULL) by discriminate.
  assert (Hg : heap Demo.m0 !! 16%N = Some Demo.mario)
    by (vm_compute; reflexivity).
  split_and!; [exact Hn|exact Hg|..];
    apply (retro_load_game_calls_with_path Demo.load_rom 16%N Demo.m0
             Demo.mario Hn Hg).
Defined.

(** Two different structures at two different addresses, both accepted. *)
Lemma retro_load_game_result_depends_on_witness :
  valid_game Demo.m0 16%N ∧
  valid_game Demo.m0 64%N ∧
  lnot_ptr 16%N = lnot_ptr 64%N ∧
  res (run Demo.load_rom (retro_load_game 16%N) Demo.m0)
  = res (run Demo.load_rom (retro_load_game 64%N) Demo.m0).
Proof.
  assert (Hv1 : valid_game Demo.m0 16%N).
  { right. exists Demo.mario. vm_compute. reflexivity. }
  assert (Hv2 : valid_game Demo.m0 64%N).
  { right. exists Demo.zelda. vm_compute. reflexivity. }
  split_and!; [exact Hv1|exact Hv2|reflexivity|].
  apply (retro_load_game_result_depends_on Demo.load_rom Demo.load_rom
           16%N 64%N Demo.m0 Demo.m0 Hv1 Hv2 eq_refl).
  intros g1 g2 _ _ Hg1 Hg2.
  vm_compute in Hg1, Hg2. simplify_eq. reflexivity.
Defined.

Lemma retro_load_game_calls_once_witness :
  valid_game Demo.m0 16%N ∧
  length (rom_calls (trace (run Demo.load_rom (retro_load_game 16%N) Demo.m0)))
    = (if lnot_ptr 16%N then 0 else 1) ∧
  length (rom_calls (trace (run Demo.load_rom (retro_load_game 16%N) Demo.m0)))
    ≤ 1.
Proof.
  assert (Hv : valid_game Demo.m0 16%N).
  { right. exists Demo.mario. vm_compute. reflexivity. }
  split; [exact Hv|].
  exact (retro_load_game_calls_once Demo.load_rom 16%N Demo.m0 Hv).
Defined.

Lemma retro_load_game_terminates_witness :
  terminating (graph Demo.load_rom) ∧
  ∃ r : result string N (list string) bool,
    exec (graph Demo.load_rom) (retro_load_game 16%N) Demo.m0 r ∧
    length (trace r) ≤ 2 ∧
    (valid_game Demo.m0 16%N → ∃ b, res r = Done b).
Proof.
  pose proof (graph_terminating Demo.load_rom) as Hterm.
  split; [exact Hterm|].
  exact (retro_load_game_terminates (graph Demo.load_rom) 16%N Demo.m0 Hterm).
Defined.

(** ** The call under an arbitrary loader

    The contract above runs the function against a loader that is a total
    function.  The statements below hold for any loader, also one with
    several possible answers or one that does not return. *)

Section AnyLoader.
Context {Path Extra World : Type}.
Implicit Types (game : ptr) (m : machine Path Extra World).
Implicit Types (g : retro_game_info Path Extra).
Implicit Types (lr : Path → machine Path Extra World
                     → bool → machine Path Extra World → Prop).

(** An answer of the loader on the path behind a live pointer makes an
    execution of the call. *)
Lemma exec_live lr game m g b m1 :
  game ≠ NULL →
  heap m !! game = Some g →
  lr (path g) m b m1 →
  exec lr (retro_load_game game) m
    (Result (Done b) m1 [EvDeref game; EvLoadRom (path g) b]).
Proof.
  intros Hn Hg Hl. rewrite retro_load_game_tree.
  apply lnot_ptr_false in Hn. rewrite Hn.
  apply (exec_deref lr game _ m g (Result (Done b) m1 [EvLoadRom (path g) b]));
    [done|].
  apply (exec_call lr (path g) _ m b m1 (Result (Done b) m1 [])); [done|].
  destruct b; apply exec_ret.
Qed.

(** The executions of the call on a non-null pointer to a live structure
    are exactly the answers of [load_rom] on that structure's path, taken
    in the caller's state: the call returns the boolean [load_rom] gave,
    leaves the state [load_rom] left, and has read [game] once and called
    [load_rom] once, in that order. *)
Theorem retro_load_game_executions lr game m g
    (r : result Path Extra World bool) :
  game ≠ NULL →
  heap m !! game = Some g →
  exec lr (retro_load_game game) m r
  ↔ ∃ b m1, lr (path g) m b m1 ∧
            r = Result (Done b) m1 [EvDeref game; EvLoadRom (path g) b].
Proof.
  intros Hn Hg. split.
  - intros H.
    apply exec_inv in H
      as [[? _]|[(_ & Hg' & _)|(_ & g' & b & m1 & Hg' & Hl & ->)]];
      [done|congruence|].
    simplify_eq. by exists b, m1.
  - intros (b & m1 & Hl & ->). by apply exec_live.
Qed.

(** On an input a caller may pass, the call returns if and only if the
    pointer is null or [load_rom] returns on the path behind it: the null
    test never waits for the loader, and a loader that does not come back
    keeps the call from coming back. *)
Theorem retro_load_game_returns_iff lr game m :
  valid_game m game →
  (∃ r : result Path Extra World bool, exec lr (retro_load_game game) m r)
  ↔ game = NULL ∨
    ∃ g b m1, heap m !! game = Some g ∧ lr (path g) m b m1.
Proof.
  intros Hv. split.
  - intros [r H].
    apply exec_inv in H
      as [[? _]|[(_ & Hg & _)|(_ & g & b & m1 & Hg & Hl & _)]].
    + by left.
    + destruct Hv as [?|[g Hg']]; [by left|congruence].
    + right. by exists g, b, m1.
  - intros [->|(g & b & m1 & Hg & Hl)].
    + eexists. apply exec_ret.
    + destruct (decide (game = NULL)) as [->|Hn].
      * eexists. apply exec_ret.
      * eexists. by eapply exec_live.
Qed.

End AnyLoader.

(** The second of two calls in a row, on the demonstration machine. *)
Lemma retro_load_game_repeat_witness :
  (∀ p s s', (Demo.load_rom p s).1 = (Demo.load_rom p s').1) ∧
  (∀ p s, path <$> heap (Demo.load_rom p s).2 !! 16%N
          = path <$> heap s !! 16%N) ∧
  res (run Demo.load_rom (retro_load_game 16%N)
         (final (run Demo.load_rom (retro_load_game 16%N) Demo.m0)))
  = res (run Demo.load_rom (retro_load_game 16%N) Demo.m0).
Proof.
  assert (Hpure : ∀ p s s', (Demo.load_rom p s).1 = (Demo.load_rom p s').1)
    by reflexivity.
  assert (Hkeep : ∀ p s, path <$> heap (Demo.load_rom p s).2 !! 16%N
                         = path <$> heap s !! 16%N)
    by reflexivity.
  split_and!; [exact Hpure|exact Hkeep|].
  exact (retro_load_game_repeat Demo.load_rom 16%N Demo.m0 Hpure Hkeep).
Defined.

(** The loader that may answer either way: both answers are executions. *)
Lemma retro_load_game_executions_witness :
  16%N ≠ NULL ∧
  heap Demo.m0 !! 16%N = Some Demo.mario ∧
  (exec Demo.flaky (retro_load_game 16%N) Demo.m0
     (Result (Done false) Demo.m0 [EvDeref 16%N; EvLoadRom "mario.nes" false])
   ↔ ∃ b m1, Demo.flaky (path Demo.mario) Demo.m0 b m1 ∧
       Result (Done false) Demo.m0 [EvDeref 16%N; EvLoadRom "mario.nes" false]
       = Result (Done b) m1 [EvDeref 16%N; EvLoadRom (path Demo.mario) b]).
Proof.
  assert (Hn : 16%N ≠ NULL) by discriminate.
  assert (Hg : heap Demo.m0 !! 16%N = Some Demo.mario)
    by (vm_compute; reflexivity).
  split_and!; [exact Hn|exact Hg|].
  exact (retro_load_game_executions Demo.flaky 16%N Demo.m0 Demo.mario
           (Result (Done false) Demo.m0
              [EvDeref 16%N; EvLoadRom "mario.nes" false]) Hn Hg).
Defined.

(** The loader that never returns, on a live pointer. *)
Lemma retro_load_game_returns_iff_witness :
  valid_game Demo.m0 16%N ∧
  ((∃ r, exec Demo.hangs (retro_load_game 16%N) Demo.m0 r)
   ↔ 16%N = NULL ∨
     ∃ g b m1, heap Demo.m0 !! 16%N = Some g ∧ Demo.hangs (path g) Demo.m0 b m1).
Proof.
  assert (Hv : valid_game Demo.m0 16%N).
  { right. exists Demo.mario. vm_compute. reflexivity. }
  split; [exact Hv|].
  exact (retro_load_game_returns_iff Demo.hangs 16%N Demo.m0 Hv).
Defined.

(** ** Two calls on the same input *)

Section SameInput.
Context {Path Extra World : Type}.
Implicit Types (game : ptr) (m : machine Path Extra World).
Implicit Types (lr : Path → machine Path Extra World
                     → bool → machine Path Extra World → Prop).

(** C5, as amended.  When the answer of [load_rom] is determined by the
    path it is given, any two calls of [retro_load_game] on the same
    pointer, with the same path behind it, return the same boolean:
    whatever the two states are otherwise, so also when the second call is
    made in the state the first one left. *)
Theorem retro_load_game_same_input lr game m1 m2
    (r1 r2 : result Path Extra World bool) :
  answer_by_path lr →
  (game ≠ NULL → path <$> heap m1 !! game = path <$> heap m2 !! game) →
  exec lr (retro_load_game game) m1 r1 →
  exec lr (retro_load_game game) m2 r2 →
  res r1 = res r2.
Proof.
  intros Hpath Hsame H1 H2.
  apply exec_inv in H1
    as [[-> ->]|[(Hn & Hg1 & ->)|(Hn & g1 & b1 & s1 & Hg1 & Hl1 & ->)]].
  - apply exec_inv in H2 as [[_ ->]|[(? & _)|(? & _)]]; done.
  - specialize (Hsame Hn). rewrite Hg1 in Hsame.
    apply exec_inv in H2
      as [[? _]|[(_ & _ & ->)|(_ & g2 & b2 & s2 & Hg2 & _ & _)]];
      [done|done|].
    by rewrite Hg2 in Hsame.
  - specialize (Hsame Hn). rewrite Hg1 in Hsame.
    apply exec_inv in H2
      as [[? _]|[(_ & Hg2 & _)|(_ & g2 & b2 & s2 & Hg2 & Hl2 & ->)]];
      [done|by rewrite Hg2 in Hsame|].
    rewrite Hg2 in Hsame. simpl in *. simplify_eq.
    rewrite Hsame in Hl1. f_equal. by eapply Hpath.
Qed.

End SameInput.

(** The first call and the call after it, with the loader that records
    what it loads: the states differ, the answers agree. *)
Lemma retro_load_game_same_input_witness :
  answer_by_path (graph Demo.load_rom) ∧
  (16%N ≠ NULL →
   path <$> heap Demo.m0 !! 16%N
   = path <$> heap (final (run Demo.load_rom (retro_load_game 16%N) Demo.m0))
                !! 16%N) ∧
  exec (graph Demo.load_rom) (retro_load_game 16%N) Demo.m0
    (run Demo.load_rom (retro_load_game 16%N) Demo.m0) ∧
  exec (graph Demo.load_rom) (retro_load_game 16%N)
    (final (run Demo.load_rom (retro_load_game 16%N) Demo.m0))
    (run Demo.load_rom (retro_load_game 16%N)
       (final (run Demo.load_rom (retro_load_game 16%N) Demo.m0))) ∧
  res (run Demo.load_rom (retro_load_game 16%N) Demo.m0)
  = res (run Demo.load_rom (retro_load_game 16%N)
           (final (run Demo.load_rom (retro_load_game 16%N) Demo.m0))).
Proof.
  assert (Hpath : answer_by_path (graph Demo.load_rom)).
  { intros p m1 b1 s1 m2 b2 s2 H1 H2.
    unfold graph, Demo.load_rom in H1, H2. congruence. }
  assert (Hsame : 16%N ≠ NULL →
            path <$> heap Demo.m0 !! 16%N
            = path <$> heap (final (run Demo.load_rom (retro_load_game 16%N)
                                      Demo.m0)) !! 16%N).
  { intros _. vm_compute. reflexivity. }
  pose proof (exec_run Demo.load_rom (retro_load_game 16%N) Demo.m0) as H1.
  pose proof (exec_run Demo.load_rom (retro_load_game 16%N)
                (final (run Demo.load_rom (retro_load_game 16%N) Demo.m0)))
    as H2.
  split_and!; [exact Hpath|exact Hsame|exact H1|exact H2|].
  exact (retro_load_game_same_input (graph Demo.load_rom) 16%N _ _ _ _
           Hpath Hsame H1 H2).
Defined.

(** Determinism of [load_rom] alone does not make two calls agree.  The
    loader [Demo.once] is deterministic; the first call on the structure at
    address 16 returns [true]; the same call made again, in the state the
    first one left and with memory untouched, returns [false]. *)
Lemma retro_load_game_second_call_differs :
  deterministic (graph Demo.once) ∧
  heap (final (run Demo.once (retro_load_game 16%N) Demo.m0)) = heap Demo.m0 ∧
  exec (graph Demo.once) (retro_load_game 16%N) Demo.m0
    (Result (Done true) (Machine (heap Demo.m0) ["mario.nes"])
       [EvDeref 16%N; EvLoadRom "mario.nes" true]) ∧
  exec (graph Demo.once) (retro_load_game 16%N)
    (Machine (heap Demo.m0) ["mario.nes"])
    (Result (Done false) (Machine (heap Demo.m0) ["mario.nes"; "mario.nes"])
       [EvDeref 16%N; EvLoadRom "mario.nes" false]) ∧
  res (run Demo.once (retro_load_game 16%N) Demo.m0) = Done true ∧
  res (run Demo.once (retro_load_game 16%N)
         (final (run Demo.once (retro_load_game 16%N) Demo.m0))) = Done false.
Proof.
  split_and!.
  - apply graph_deterministic.
  - vm_compute. reflexivity.
  - apply (exec_live (graph Demo.once) 16%N Demo.m0 Demo.mario true);
      [discriminate|vm_compute; reflexivity|reflexivity].
  - apply (exec_live (graph Demo.once) 16%N
             (Machine (heap Demo.m0) ["mario.nes"]) Demo.mario false);
      [discriminate|vm_compute; reflexivity|reflexivity].
  - vm_compute. reflexivity.
  - vm_compute. reflexivity.
Qed.
